(** * games-data: the rate limiter and the room of the cloud-variable server

    A shallow embedding of [src/RateLimiter.js] and [src/Room.js].

    - JavaScript numbers that hold counts and millisecond timestamps are
      integers here ([Z]); [Date.now()] is an input of the call that
      reads it.
    - Arrays are lists: [push] appends at the back, [shift] removes the
      front.
    - The [Map] of room variables is a [gmap string string]; keys are
      compared as whole strings, as [Map] does.
    - A method that mutates [this] and may throw is a function from the
      object before the call to an outcome and the object after it. *)

From Stdlib Require Import ZArith Lia.
From stdpp Require Import gmap strings list fin_maps sorting.

#[local] Open Scope Z_scope.
Set Default Proof Using "Type".

(** ** Array primitives used by both classes *)

(** [a.push(x)]: the array with [x] appended. *)
Definition push {A} (a : list A) (x : A) : list A := a ++ [x].

(** [a.shift()]: the removed front element ([None] for [undefined], on an
    empty array) and the remaining array. *)
Definition shift {A} (a : list A) : option A * list A :=
  match a with
  | [] => (None, [])
  | x :: a' => (Some x, a')
  end.

(** [a.indexOf(x)]: the index of the first element equal to [x], or [-1]. *)
Fixpoint indexOf `{EqDecision A} (a : list A) (x : A) : Z :=
  match a with
  | [] => -1
  | y :: a' =>
      if decide (y = x) then 0
      else let i := indexOf a' x in if decide (i = -1) then -1 else i + 1
  end.

(** [a.includes(x)]. *)
Fixpoint includes `{EqDecision A} (a : list A) (x : A) : bool :=
  match a with
  | [] => false
  | y :: a' => if decide (y = x) then true else includes a' x
  end.

(** [a.splice(index, 1)] for [0 <= index]: the array without the element
    at [index]. *)
Definition splice1 {A} (a : list A) (index : Z) : list A :=
  take (Z.to_nat index) a ++ drop (S (Z.to_nat index)) a.

(** ** RateLimiter.js *)

Module RateLimiter.

Record t := mk {
  maxOperations : Z;
  timePeriod : Z;
  history : list Z
}.

(** [new RateLimiter(maxOperations, timePeriod)]. *)
Definition new (maxOperations timePeriod : Z) : t :=
  mk maxOperations timePeriod [].

Definition with_history (h : list Z) (l : t) : t :=
  mk (maxOperations l) (timePeriod l) h.

(** [rateLimited()], with [now] the value [Date.now()] returns in it. *)
Definition rateLimited (now : Z) (l : t) : bool * t :=
  let h := push (history l) now in
  if Z.of_nat (length h) >? maxOperations l then
    match shift h with
    | (Some period, h') =>
        let timeSince := now - period in
        (bool_decide (timeSince < timePeriod l), with_history h' l)
    | (None, h') =>
        (* [now - undefined] is NaN, and [NaN < timePeriod] is false *)
        (false, with_history h' l)
    end
  else (false, with_history h l).

(** Successive calls, one per clock reading of [nows]: the answers in
    order and the limiter after the last call. *)
Fixpoint run (nows : list Z) (l : t) : list bool * t :=
  match nows with
  | [] => ([], l)
  | now :: nows' =>
      let '(b, l1) := rateLimited now l in
      let '(bs, l2) := run nows' l1 in
      (b :: bs, l2)
  end.

End RateLimiter.

(** ** Room.js *)

(** [s.toLowerCase()] on strings of ASCII characters: the letters [A]-[Z]
    become [a]-[z], every other character is kept. *)
Definition lower_ascii (c : Ascii.ascii) : Ascii.ascii :=
  let n := Ascii.N_of_ascii c in
  if ((65 <=? n) && (n <=? 90))%N then Ascii.ascii_of_N (n + 32) else c.

Fixpoint toLowerCase (s : string) : string :=
  match s with
  | EmptyString => EmptyString
  | String c s' => String (lower_ascii c) (toLowerCase s')
  end.

Module Room.

(** The errors the methods throw, under the names of the specification's
    taxonomy; [message] is the text given to [new Error(...)]. *)
Inductive error :=
  | AlreadyMember | NotMember
  | InvalidName | InvalidValue
  | AlreadyExists | NotFound
  | Capacity.

Definition message (e : error) : string :=
  match e with
  | AlreadyMember => "Client is already added to this Room."
  | NotMember => "Client does not belong to this Room"
  | InvalidName => "Invalid variable name"
  | InvalidValue => "Invalid value"
  | AlreadyExists => "Variable already exists"
  | NotFound => "Variable does not exist"
  | Capacity => "Too many variables"
  end.

(** A client is an object reference: [includes] and [indexOf] compare
    references, and the [username] field is read through the reference. *)
Definition Client := nat.

Record t := mk {
  id : string;
  variables : gmap string string;
  clients : list Client;
  lastDisconnectTime : Z;
  maxVariables : Z
}.

(** [new Room(id)]. *)
Definition new (id : string) : t := mk id ∅ [] (-1) 10.

Definition with_variables (vs : gmap string string) (r : t) : t :=
  mk (id r) vs (clients r) (lastDisconnectTime r) (maxVariables r).
Definition with_clients (cs : list Client) (r : t) : t :=
  mk (id r) (variables r) cs (lastDisconnectTime r) (maxVariables r).
Definition with_lastDisconnectTime (time : Z) (r : t) : t :=
  mk (id r) (variables r) (clients r) time (maxVariables r).

(** *** Methods as state transformers that may throw

    A method call maps the room before the call to its outcome (the
    thrown error or the returned value) and the room after the call. *)
Definition M (A : Type) : Type := t -> (error + A) * t.

Definition ret {A} (a : A) : M A := fun r => (inr a, r).
Definition throw {A} (e : error) : M A := fun r => (inl e, r).
Definition bind {A B} (m : M A) (k : A -> M B) : M B :=
  fun r =>
    match m r with
    | (inl e, r') => (inl e, r')
    | (inr a, r') => k a r'
    end.
Definition read {A} (field : t -> A) : M A := fun r => (inr (field r), r).
Definition write (update : t -> t) : M unit := fun r => (inr tt, update r).
(** [if (b) { throw ... }] *)
Definition throw_if (b : bool) (e : error) : M unit :=
  if b then throw e else ret tt.

Declare Scope room_scope.
Delimit Scope room_scope with room.
Notation "x <- m ;; k" := (bind m (fun x => k))
  (at level 100, m at next level, right associativity) : room_scope.
Notation "m ;; k" := (bind m (fun _ => k))
  (at level 100, right associativity) : room_scope.
#[local] Open Scope room_scope.

Section Methods.
(** The validators module is outside this development: its two
    predicates are parameters. *)
Variables isValidVariableName isValidVariableValue : string -> bool.
(** The [username] field of each client object. *)
Variable username : Client -> string.

Definition addClient (client : Client) : M unit :=
  cs <- read clients ;;
  throw_if (includes cs client) AlreadyMember ;;
  cs <- read clients ;;
  write (with_clients (push cs client)).

(** [now] is the value [Date.now()] returns in the call. *)
Definition removeClient (client : Client) (now : Z) : M unit :=
  cs <- read clients ;;
  let index := indexOf cs client in
  throw_if (bool_decide (index = -1)) NotMember ;;
  cs <- read clients ;;
  write (with_clients (splice1 cs index)) ;;
  write (with_lastDisconnectTime now).

Definition getClients : M (list Client) := read clients.

Definition getAllVariables : M (gmap string string) := read variables.

Definition has (name : string) : M bool :=
  vs <- read variables ;;
  ret (bool_decide (is_Some (vs !! name))).

Definition create (name value : string) : M unit :=
  throw_if (negb (isValidVariableName name)) InvalidName ;;
  throw_if (negb (isValidVariableValue value)) InvalidValue ;;
  present <- has name ;;
  throw_if present AlreadyExists ;;
  vs <- read variables ;;
  limit <- read maxVariables ;;
  throw_if (Z.of_nat (size vs) >=? limit) Capacity ;;
  vs <- read variables ;;
  write (with_variables (<[name := value]> vs)).

Definition set (name value : string) : M unit :=
  throw_if (negb (isValidVariableName name)) InvalidName ;;
  throw_if (negb (isValidVariableValue value)) InvalidValue ;;
  present <- has name ;;
  throw_if (negb present) NotFound ;;
  vs <- read variables ;;
  write (with_variables (<[name := value]> vs)).

Definition hasClientWithUsername (name : string) : M bool :=
  let name := toLowerCase name in
  cs <- getClients ;;
  ret (existsb (fun i => String.eqb (toLowerCase (username i)) name) cs).

(** The [for ... of] loop over the keys: [false] at the first key that
    [indexOf] does not find. *)
Fixpoint all_listed (keys names : list string) : bool :=
  match keys with
  | [] => true
  | variableName :: keys' =>
      if bool_decide (indexOf names variableName = -1) then false
      else all_listed keys' names
  end.

Definition matchesVariableList (names : list string) : M bool :=
  vs <- read variables ;;
  if negb (Z.of_nat (length names) =? Z.of_nat (size vs)) then ret false
  else
    vs <- getAllVariables ;;
    ret (all_listed (map_to_list vs).*1 names).
End Methods.

End Room.

(** ** Notions used to state the properties *)

(** Timestamps in recording order never decrease. *)
Definition nondecreasing (h : list Z) : Prop := StronglySorted Z.le h.

(** One call on a room: its method and arguments. *)
Inductive op :=
  | CallAddClient (client : Room.Client)
  | CallRemoveClient (client : Room.Client) (now : Z)
  | CallGetClients
  | CallGetAllVariables
  | CallCreate (name value : string)
  | CallSet (name value : string)
  | CallHas (name : string)
  | CallHasClientWithUsername (name : string)
  | CallMatchesVariableList (names : list string).

Section Calls.
Variables isValidVariableName isValidVariableValue : string -> bool.
Variable username : Room.Client -> string.

(** The room after one call, whether it returned or threw. *)
Definition exec (o : op) (r : Room.t) : Room.t :=
  match o with
  | CallAddClient client => (Room.addClient client r).2
  | CallRemoveClient client now => (Room.removeClient client now r).2
  | CallGetClients => (Room.getClients r).2
  | CallGetAllVariables => (Room.getAllVariables r).2
  | CallCreate name value =>
      (Room.create isValidVariableName isValidVariableValue name value r).2
  | CallSet name value =>
      (Room.set isValidVariableName isValidVariableValue name value r).2
  | CallHas name => (Room.has name r).2
  | CallHasClientWithUsername name => (Room.hasClientWithUsername username name r).2
  | CallMatchesVariableList names => (Room.matchesVariableList names r).2
  end.

(** The room after a sequence of calls. *)
Definition execs (ops : list op) (r : Room.t) : Room.t :=
  fold_left (fun r o => exec o r) ops r.

(** No two different connected clients have usernames that are equal
    once lower-cased. *)
Definition usernames_unique (r : Room.t) : Prop :=
  forall c1 c2 : Room.Client,
    c1 ∈ Room.clients r -> c2 ∈ Room.clients r -> c1 <> c2 ->
    toLowerCase (username c1) <> toLowerCase (username c2).

(** The caller checks the username before each [addClient]: the call is
    made only when [hasClientWithUsername] answers [false] for the
    client's username. *)
Fixpoint username_checked (ops : list op) (r : Room.t) : Prop :=
  match ops with
  | [] => True
  | o :: ops' =>
      match o with
      | CallAddClient client =>
          (Room.hasClientWithUsername username (username client) r).1
            = inr false
      | _ => True
      end /\ username_checked ops' (exec o r)
  end.
End Calls.

(** Validators and usernames of the worked examples. *)
Definition nonempty (s : string) : bool := negb (String.eqb s "").
Definition short (s : string) : bool := Nat.leb (String.length s) 3.
Definition alice_and_Alice (c : Room.Client) : string :=
  if decide (c = 1%nat) then "alice" else "Alice".
Definition alice_and_bob (c : Room.Client) : string :=
  if decide (c = 1%nat) then "alice" else "Bob".

(** A room holding the variables [x] and [y], and the same room with
    its [maxVariables] field lowered to 2. *)
Definition room_xy : Room.t :=
  (Room.create nonempty short "y" "2"
     (Room.create nonempty short "x" "1" (Room.new "room")).2).2.
Definition room_xy_full : Room.t :=
  Room.mk "room" (Room.variables room_xy) [] (-1) 2.

(** * Properties of the rate limiter *)

Section RateLimiterSteps.
Import RateLimiter.
Variables (now : Z) (l : t).

Lemma rateLimited_config :
  maxOperations (rateLimited now l).2 = maxOperations l /\
  timePeriod (rateLimited now l).2 = timePeriod l.
Proof.
  unfold rateLimited.
  destruct (_ >? _); [destruct (shift _) as [[p|] h']|]; done.
Qed.

(** Window not yet full: the reading is recorded and the answer is
    [false]. *)
Lemma rateLimited_room :
  Z.of_nat (length (history l)) < maxOperations l ->
  rateLimited now l = (false, with_history (history l ++ [now]) l).
Proof.
  intros Hlen. unfold rateLimited, push.
  rewrite length_app. simpl.
  destruct (Z.gtb_spec (Z.of_nat (length (history l) + 1)) (maxOperations l));
    [lia | done].
Qed.

(** Window full: the front is evicted and its age decides. *)
Lemma rateLimited_full period h :
  history l = period :: h ->
  maxOperations l <= Z.of_nat (length (history l)) ->
  rateLimited now l =
    (bool_decide (now - period < timePeriod l), with_history (h ++ [now]) l).
Proof.
  intros Hh Hlen. unfold rateLimited, push.
  rewrite length_app. simpl.
  destruct (Z.gtb_spec (Z.of_nat (length (history l) + 1)) (maxOperations l));
    [| lia].
  rewrite Hh. done.
Qed.

(** No capacity at all and nothing recorded: the reading just pushed is
    the one evicted. *)
Lemma rateLimited_zero :
  history l = [] ->
  maxOperations l <= 0 ->
  rateLimited now l =
    (bool_decide (now - now < timePeriod l), with_history [] l).
Proof.
  intros Hh Hmax. unfold rateLimited, push. rewrite Hh. simpl.
  destruct (Z.gtb_spec (Z.of_nat 1) (maxOperations l)); [reflexivity | lia].
Qed.

(** Each call records [now] at the back and drops at most the front. *)
Lemma rateLimited_history :
  exists k : nat,
    (k <= 1)%nat /\
    history (rateLimited now l).2 = drop k (history l ++ [now]).
Proof.
  unfold rateLimited, push.
  destruct (_ >? _).
  - exists 1%nat. split; [lia |]. by destruct (history l).
  - exists 0%nat. split; [lia | done].
Qed.
End RateLimiterSteps.

Section RateLimiterRuns.
Import RateLimiter.

Lemma run_config nows : forall l,
  maxOperations (run nows l).2 = maxOperations l /\
  timePeriod (run nows l).2 = timePeriod l.
Proof.
  induction nows as [|now nows IH]; intros l; simpl; [done |].
  destruct (rateLimited now l) as [b l1] eqn:Hstep.
  destruct (run nows l1) as [bs l2] eqn:Hrun. simpl.
  specialize (IH l1). rewrite Hrun in IH. simpl in IH.
  pose proof (rateLimited_config now l) as Hc. rewrite Hstep in Hc.
  simpl in Hc. destruct IH, Hc. split; congruence.
Qed.

(** While the window has room for all of [nows], every call answers
    [false] and the readings pile up in order. *)
Lemma run_room nows : forall l,
  Z.of_nat (length (history l) + length nows) <= maxOperations l ->
  run nows l =
    (replicate (length nows) false, with_history (history l ++ nows) l).
Proof.
  induction nows as [|now nows IH]; intros l Hlen; simpl.
  - rewrite app_nil_r. by destruct l.
  - simpl in Hlen. rewrite rateLimited_room by lia.
    rewrite IH; simpl; [| rewrite length_app; simpl; lia].
    by rewrite <- app_assoc.
Qed.

(** A run records its readings at the back and drops some front part. *)
Lemma run_history nows : forall l,
  exists k : nat, history (run nows l).2 = drop k (history l ++ nows).
Proof.
  induction nows as [|now nows IH]; intros l; simpl.
  - exists 0%nat. by rewrite app_nil_r.
  - destruct (rateLimited_history now l) as (k1 & Hle & Hk1).
    destruct (rateLimited now l) as [b l1]. simpl in Hk1.
    destruct (IH l1) as (k2 & Hk2).
    destruct (run nows l1) as [bs l2]. simpl in *.
    rewrite Hk2, Hk1.
    destruct k1 as [|[|k1]]; [| | lia].
    + exists k2. by rewrite drop_0, <- app_assoc.
    + exists (S k2). destruct (history l) as [|p h]; simpl; [done |].
      by rewrite drop_0, <- app_assoc.
Qed.

Lemma nondecreasing_drop k h : nondecreasing h -> nondecreasing (drop k h).
Proof.
  unfold nondecreasing. intros Hs.
  rewrite <- (take_drop k h) in Hs. by eapply StronglySorted_app_1_r.
Qed.

(** With no capacity, a run from an empty history answers [true] each
    time and leaves the history empty. *)
Lemma run_zero nows : forall l,
  maxOperations l = 0 -> 0 < timePeriod l -> history l = [] ->
  run nows l = (replicate (length nows) true, l).
Proof.
  induction nows as [|now nows IH]; intros l Hmax HT Hh; simpl; [done |].
  rewrite rateLimited_zero by (done || lia).
  assert (with_history [] l = l) as -> by (destruct l; simpl in *; by subst).
  rewrite IH by done.
  by rewrite bool_decide_true by lia.
Qed.
End RateLimiterRuns.

Section RateLimiterClaims.
Import RateLimiter.

(** C1. For a limiter built with [maxOperations = N >= 1] and
    [timePeriod = T > 0], starting from an empty history: [N] calls of
    [rateLimited] at one instant [t0] all answer [false]; the
    [(N+1)]-th call, at a time [t] less than [T] milliseconds after
    the first, answers [true]; at a time [t] at least [T] milliseconds
    after the first it answers [false]. The scenario [N = 2],
    [T = 1000] with calls at 0, 100, 200 and 1300 answers false, false,
    true, false. *)
Theorem burst_then_window (N T t0 t : Z) :
  1 <= N -> 0 < T ->
  let burst := run (replicate (Z.to_nat N) t0) (new N T) in
  burst.1 = replicate (Z.to_nat N) false /\
  (t - t0 < T -> (rateLimited t burst.2).1 = true) /\
  (T <= t - t0 -> (rateLimited t burst.2).1 = false) /\
  (run [0; 100; 200; 1300] (new 2 1000)).1 = [false; false; true; false].
Proof.
  intros HN HT burst. subst burst.
  rewrite run_room by (simpl; rewrite length_replicate; lia).
  rewrite length_replicate. simpl.
  destruct (Z.to_nat N) as [|n] eqn:Hn; [lia |].
  assert (forall next,
    (rateLimited next (with_history (replicate (S n) t0) (new N T))).1
      = bool_decide (next - t0 < T)) as Hnext.
  { intros next.
    rewrite (rateLimited_full next _ t0 (replicate n t0)); [done | done |].
    simpl. rewrite length_replicate. lia. }
  rewrite Hnext. repeat split.
  - intros Hlt. by rewrite bool_decide_true.
  - intros Hge. rewrite bool_decide_false; [done | lia].
Qed.

Lemma burst_then_window_witness :
  let burst := run (replicate (Z.to_nat 2) 0) (new 2 1000) in
  burst.1 = replicate (Z.to_nat 2) false /\
  (200 - 0 < 1000 -> (rateLimited 200 burst.2).1 = true) /\
  (1000 <= 200 - 0 -> (rateLimited 200 burst.2).1 = false) /\
  (run [0; 100; 200; 1300] (new 2 1000)).1 = [false; false; true; false].
Proof. apply (burst_then_window 2 1000 0 200); lia. Defined.

(** A limited report leaves exactly [maxOperations] timestamps in the
    history, when there were no more than that before the call. *)
Lemma limited_report_full now l :
  Z.of_nat (length (history l)) <= maxOperations l ->
  (rateLimited now l).1 = true ->
  Z.of_nat (length (history (rateLimited now l).2)) = maxOperations l.
Proof.
  intros Hlen. unfold rateLimited, push.
  rewrite length_app. simpl.
  destruct (Z.gtb_spec (Z.of_nat (length (history l) + 1)) (maxOperations l));
    [| done].
  destruct (history l) as [|p h]; simpl in *; intros _.
  - lia.
  - rewrite length_app. simpl. lia.
Qed.

(** C4. No permanent lockout: when the history of a limiter with
    [maxOperations = N >= 1] holds [N] timestamps, a call made at least
    [timePeriod] milliseconds after the oldest of them, the one at the
    front, answers [false]. In a non-decreasing history nothing
    recorded is earlier than the front. *)
Theorem no_permanent_lockout (l : t) (oldest now : Z) :
  1 <= maxOperations l ->
  Z.of_nat (length (history l)) = maxOperations l ->
  head (history l) = Some oldest ->
  timePeriod l <= now - oldest ->
  (rateLimited now l).1 = false /\
  (nondecreasing (history l) -> Forall (Z.le oldest) (history l)).
Proof.
  intros HN Hlen Hhead Hwait.
  destruct (history l) as [|p h] eqn:Hh; [done |].
  simpl in Hhead. injection Hhead as ->.
  split.
  - rewrite (rateLimited_full now l oldest h Hh) by (rewrite Hh; lia).
    simpl. rewrite bool_decide_false; [done | lia].
  - intros Hs. apply StronglySorted_cons in Hs as [Hall _].
    constructor; [lia | done].
Qed.

Lemma no_permanent_lockout_witness :
  (rateLimited 1300 (mk 2 1000 [100; 200])).1 = false /\
  (nondecreasing [100; 200] -> Forall (Z.le 100) [100; 200]).
Proof.
  apply (no_permanent_lockout (mk 2 1000 [100; 200]) 100 1300);
    simpl; (lia || reflexivity).
Defined.

(** C5. For a limiter with [maxOperations >= 0]: a history no longer
    than [maxOperations] before a call is no longer than
    [maxOperations] after it; a non-decreasing history whose entries
    are not after [now] is non-decreasing after the call at [now];
    and from the empty history, calls at non-decreasing clock readings
    leave a non-decreasing history no longer than [maxOperations]. *)
Theorem history_invariant (l : t) (now : Z) :
  0 <= maxOperations l ->
  (Z.of_nat (length (history l)) <= maxOperations l ->
   Z.of_nat (length (history (rateLimited now l).2)) <= maxOperations l) /\
  (nondecreasing (history l) -> Forall (fun time => time <= now) (history l) ->
   nondecreasing (history (rateLimited now l).2)) /\
  (forall nows : list Z,
     nondecreasing nows ->
     let after := (run nows (new (maxOperations l) (timePeriod l))).2 in
     Z.of_nat (length (history after)) <= maxOperations l /\
     nondecreasing (history after)).
Proof.
  intros HN.
  assert (forall l' now',
    0 <= maxOperations l' ->
    Z.of_nat (length (history l')) <= maxOperations l' ->
    Z.of_nat (length (history (rateLimited now' l').2)) <= maxOperations l')
    as Hbound.
  { intros l' now' HN' Hlen. unfold rateLimited, push.
    rewrite length_app. simpl.
    destruct (Z.gtb_spec (Z.of_nat (length (history l') + 1)) (maxOperations l')).
    - destruct (history l') as [|p h]; simpl in *; [lia |].
      rewrite length_app. simpl. lia.
    - simpl. rewrite length_app. simpl. lia. }
  split; [by apply Hbound |]. split.
  - intros Hs Hall.
    destruct (rateLimited_history now l) as (k & _ & ->).
    apply nondecreasing_drop, StronglySorted_app_2; [| done | repeat constructor].
    intros x1 x2 Hx1 Hx2%list_elem_of_singleton. subst x2.
    by apply (proj1 (Forall_forall _ _) Hall).
  - intros nows Hs after. subst after. split.
    + assert (forall l', 0 <= maxOperations l' ->
        Z.of_nat (length (history l')) <= maxOperations l' ->
        Z.of_nat (length (history (run nows l').2)) <= maxOperations l') as Hrun.
      { clear Hs. induction nows as [|t1 nows IH]; intros l' HN' Hlen; simpl; [done |].
        pose proof (Hbound l' t1 HN' Hlen) as Hb.
        pose proof (rateLimited_config t1 l') as [Hc _].
        destruct (rateLimited t1 l') as [b l1]. simpl in *.
        specialize (IH l1). rewrite Hc in IH.
        destruct (run nows l1) as [bs l2]. simpl in *.
        pose proof (run_config nows l1) as [Hc2 _].
        apply IH; [done | done]. }
      pose proof (run_config nows (new (maxOperations l) (timePeriod l))) as [Hc _].
      specialize (Hrun (new (maxOperations l) (timePeriod l))).
      simpl in *. apply Hrun; [done | lia].
    + destruct (run_history nows (new (maxOperations l) (timePeriod l)))
        as (k & ->).
      simpl. by apply nondecreasing_drop.
Qed.

Lemma history_invariant_witness :
  Z.of_nat (length (history (rateLimited 1300 (mk 2 1000 [100; 200])).2)) <= 2 /\
  nondecreasing (history (rateLimited 1300 (mk 2 1000 [100; 200])).2) /\
  nondecreasing (history (run [0; 100; 200; 1300] (new 2 1000)).2).
Proof.
  destruct (history_invariant (mk 2 1000 [100; 200]) 1300) as (H1 & H2 & H3);
    [simpl; lia |].
  split; [apply H1; simpl; lia |].
  split.
  - apply H2; repeat constructor; lia.
  - apply (H3 [0; 100; 200; 1300]). repeat constructor; lia.
Defined.

(** C9. For a limiter built with [maxOperations = 0] and
    [timePeriod > 0], every call from the empty history evicts the
    timestamp it has just recorded, answers [true] and leaves the
    history empty; so does every call of any run from the new
    limiter. *)
Theorem zero_capacity_always_limited (T now : Z) (nows : list Z) :
  0 < T ->
  shift (push (history (new 0 T)) now) = (Some now, []) /\
  rateLimited now (new 0 T) = (true, new 0 T) /\
  run nows (new 0 T) = (replicate (length nows) true, new 0 T).
Proof.
  intros HT. split; [done |]. split.
  - rewrite rateLimited_zero by done. simpl.
    rewrite bool_decide_true by lia. done.
  - by apply run_zero.
Qed.

Lemma zero_capacity_always_limited_witness :
  shift (push (history (new 0 1000)) 7) = (Some 7, []) /\
  rateLimited 7 (new 0 1000) = (true, new 0 1000) /\
  run [7; 7; 9] (new 0 1000) = (replicate (length [7; 7; 9]) true, new 0 1000).
Proof. apply (zero_capacity_always_limited 1000 7 [7; 7; 9]). lia. Defined.
End RateLimiterClaims.

(** * Properties of the room *)

Section Arrays.
Context `{EqDecision A}.
Implicit Types (a : list A) (x : A).

Lemma includes_elem_of a x : includes a x = true <-> x ∈ a.
Proof.
  induction a as [|y a IH]; simpl.
  - split; [done | by intros ?%elem_of_nil].
  - rewrite elem_of_cons. destruct (decide (y = x)) as [->|Hne].
    + split; [by left | done].
    + rewrite IH. split; [by right | by intros [->|]].
Qed.

Lemma includes_not_elem_of a x : includes a x = false <-> x ∉ a.
Proof.
  rewrite <- includes_elem_of. by destruct (includes a x).
Qed.

Lemma indexOf_range a x : -1 <= indexOf a x < Z.of_nat (length a).
Proof.
  induction a as [|y a IH]; simpl; [lia |].
  destruct (decide (y = x)); [lia |].
  destruct (decide (indexOf a x = -1)); lia.
Qed.

Lemma indexOf_absent a x : indexOf a x = -1 <-> x ∉ a.
Proof.
  induction a as [|y a IH]; simpl.
  - split; [intros _; apply not_elem_of_nil | done].
  - rewrite not_elem_of_cons. destruct (decide (y = x)) as [->|Hne].
    + split; [done | by intros []].
    + destruct (decide (indexOf a x = -1)) as [Heq|Hidx].
      * split; [intros _; split; [done | by apply IH] | done].
      * pose proof (indexOf_range a x).
        split; [lia | intros [_ Hx]; by apply IH in Hx].
Qed.

(** [indexOf] finds the first occurrence, and [splice] at that index
    removes exactly it. *)
Lemma indexOf_splice a x :
  x ∈ a ->
  exists before after,
    a = before ++ x :: after /\ (x ∉ before) /\
    indexOf a x = Z.of_nat (length before) /\
    splice1 a (indexOf a x) = before ++ after.
Proof.
  induction a as [|y a IH]; [by intros ?%elem_of_nil |].
  intros Hin. simpl. destruct (decide (y = x)) as [->|Hne].
  - exists [], a. repeat split; try done. apply not_elem_of_nil.
  - apply elem_of_cons in Hin as [->|Hin]; [done |].
    destruct (IH Hin) as (before & after & Ha & Hnot & Hidx & Hspl).
    destruct (decide (indexOf a x = -1)) as [Habs|_];
      [by apply indexOf_absent in Habs |].
    exists (y :: before), after. repeat split.
    + by rewrite Ha at 1.
    + by apply not_elem_of_cons.
    + rewrite Hidx. simpl. lia.
    + unfold splice1 in *. rewrite Hidx in *.
      replace (Z.to_nat (Z.of_nat (length before) + 1))
        with (S (Z.to_nat (Z.of_nat (length before)))) by lia.
      simpl. by rewrite <- Hspl.
Qed.
End Arrays.

(** Unfolds a method call down to the room it is applied to. *)
Ltac room_call :=
  unfold Room.addClient, Room.removeClient, Room.getClients,
    Room.getAllVariables, Room.create, Room.set, Room.has,
    Room.hasClientWithUsername, Room.matchesVariableList;
  unfold Room.bind, Room.throw_if, Room.read, Room.write, Room.ret,
    Room.throw;
  simpl.

Section RoomCalls.
Import Room.
Variables isValidVariableName isValidVariableValue : string -> bool.
Variable username : Client -> string.

Abbreviation create := (Room.create isValidVariableName isValidVariableValue).
Abbreviation set := (Room.set isValidVariableName isValidVariableValue).
Abbreviation hasClientWithUsername := (Room.hasClientWithUsername username).

Lemma with_same r :
  with_variables (variables r) r = r /\ with_clients (clients r) r = r.
Proof. by destruct r. Qed.

(** What each call evaluates to, guard by guard. *)
Lemma addClient_eval client r :
  addClient client r =
    if includes (clients r) client then (inl AlreadyMember, r)
    else (inr (), with_clients (clients r ++ [client]) r).
Proof. room_call. by destruct (includes _ _). Qed.

Lemma removeClient_eval client now r :
  removeClient client now r =
    if bool_decide (indexOf (clients r) client = -1) then (inl NotMember, r)
    else (inr (),
          with_lastDisconnectTime now
            (with_clients (splice1 (clients r) (indexOf (clients r) client)) r)).
Proof. room_call. by case_bool_decide. Qed.

Lemma has_eval name r :
  has name r = (inr (bool_decide (is_Some (variables r !! name))), r).
Proof. done. Qed.

Lemma create_eval name value r :
  create name value r =
    if negb (isValidVariableName name) then (inl InvalidName, r)
    else if negb (isValidVariableValue value) then (inl InvalidValue, r)
    else if bool_decide (is_Some (variables r !! name))
    then (inl AlreadyExists, r)
    else if Z.of_nat (size (variables r)) >=? maxVariables r
    then (inl Capacity, r)
    else (inr (), with_variables (<[name := value]> (variables r)) r).
Proof.
  room_call.
  destruct (isValidVariableName name); simpl; [| done].
  destruct (isValidVariableValue value); simpl; [| done].
  case_bool_decide; [done |].
  by destruct (_ >=? _).
Qed.

Lemma set_eval name value r :
  set name value r =
    if negb (isValidVariableName name) then (inl InvalidName, r)
    else if negb (isValidVariableValue value) then (inl InvalidValue, r)
    else if negb (bool_decide (is_Some (variables r !! name)))
    then (inl NotFound, r)
    else (inr (), with_variables (<[name := value]> (variables r)) r).
Proof.
  room_call.
  destruct (isValidVariableName name); simpl; [| done].
  destruct (isValidVariableValue value); simpl; [| done].
  by case_bool_decide.
Qed.

Lemma hasClientWithUsername_eval name r :
  hasClientWithUsername name r =
    (inr (existsb
            (fun i => String.eqb (toLowerCase (username i)) (toLowerCase name))
            (clients r)), r).
Proof. done. Qed.

Lemma matchesVariableList_eval names r :
  matchesVariableList names r =
    (inr (if negb (Z.of_nat (length names) =? Z.of_nat (size (variables r)))
          then false
          else all_listed (map_to_list (variables r)).*1 names), r).
Proof. room_call. by destruct (negb _). Qed.

(** C3. [create(name, value)] throws [InvalidName] when the name
    validator rejects [name]; otherwise [InvalidValue] when the value
    validator rejects [value]; otherwise [AlreadyExists] when [name]
    is present; otherwise [Capacity] when
    [variables.size >= maxVariables]; otherwise it returns, the pair
    is in the map and [has(name)] is then true. Whenever it throws,
    the room, its variables among the rest, is as before the call. *)
Theorem create_precedence (name value : string) (r : t) :
  let call := create name value r in
  (isValidVariableName name = false -> call = (inl InvalidName, r)) /\
  (isValidVariableName name = true -> isValidVariableValue value = false ->
   call = (inl InvalidValue, r)) /\
  (isValidVariableName name = true -> isValidVariableValue value = true ->
   is_Some (variables r !! name) ->
   call = (inl AlreadyExists, r)) /\
  (isValidVariableName name = true -> isValidVariableValue value = true ->
   variables r !! name = None ->
   maxVariables r <= Z.of_nat (size (variables r)) ->
   call = (inl Capacity, r)) /\
  (isValidVariableName name = true -> isValidVariableValue value = true ->
   variables r !! name = None ->
   Z.of_nat (size (variables r)) < maxVariables r ->
   call = (inr (), with_variables (<[name := value]> (variables r)) r) /\
   variables call.2 !! name = Some value /\
   (has name call.2).1 = inr true) /\
  (forall e, call.1 = inl e -> call.2 = r).
Proof.
  intros call. subst call. rewrite create_eval.
  destruct (isValidVariableName name), (isValidVariableValue value); simpl;
    try by repeat split.
  case_bool_decide as Hpresent.
  { repeat split; intros; try done; destruct Hpresent; congruence. }
  destruct (Z.geb_spec (Z.of_nat (size (variables r))) (maxVariables r)).
  - repeat split; intros; try done; lia.
  - repeat split; intros; try done; try lia; simpl.
    + apply lookup_insert_eq.
    + rewrite bool_decide_true; [done |].
      rewrite lookup_insert_eq. by eexists.
Qed.

(** C7. [set(name, value)] throws [InvalidName] or [InvalidValue] on the
    verdict of the validators [create] uses, throws [NotFound] when no
    variable is named [name], and otherwise returns with the value
    overwritten, which [getAllVariables] then shows. Whenever it
    throws, the room, its variables among the rest, is as before the
    call. *)
Theorem set_overwrites (name value : string) (r : t) :
  let call := set name value r in
  (isValidVariableName name = false -> call = (inl InvalidName, r)) /\
  (isValidVariableName name = true -> isValidVariableValue value = false ->
   call = (inl InvalidValue, r)) /\
  (isValidVariableName name = true -> isValidVariableValue value = true ->
   variables r !! name = None ->
   call = (inl NotFound, r)) /\
  (isValidVariableName name = true -> isValidVariableValue value = true ->
   is_Some (variables r !! name) ->
   call = (inr (), with_variables (<[name := value]> (variables r)) r) /\
   exists shown,
     (getAllVariables call.2).1 = inr shown /\
     shown !! name = Some value /\
     (forall other, other <> name -> shown !! other = variables r !! other) /\
     size shown = size (variables r)) /\
  (forall e, call.1 = inl e -> call.2 = r).
Proof.
  intros call. subst call. rewrite set_eval.
  destruct (isValidVariableName name), (isValidVariableValue value); simpl;
    try by repeat split.
  case_bool_decide as Hpresent; simpl.
  - repeat split; intros; try done; try (destruct Hpresent; congruence).
    eexists. split; [reflexivity |]. simpl. split; [apply lookup_insert_eq |].
    split.
    + intros other Hother. by apply lookup_insert_ne.
    + destruct Hpresent as [old Hold]. by eapply map_size_insert_Some.
  - repeat split; intros; done.
Qed.

(** C6. [addClient(c)] throws [AlreadyMember] exactly when [c] is in
    [clients], and otherwise appends [c]; [removeClient(c)] throws
    [NotMember] exactly when [c] is not in [clients], and otherwise
    removes the first [c], which is the only one when no reference is
    repeated, and sets [lastDisconnectTime] to the clock reading of the
    call, not before any reading taken earlier on a clock that does not
    go backward. A call that throws leaves [clients] and
    [lastDisconnectTime], and the rest of the room, as they were. *)
Theorem membership_errors (client : Client) (now : Z) (r : t) :
  ((addClient client r).1 = inl AlreadyMember <-> client ∈ clients r) /\
  (client ∈ clients r -> addClient client r = (inl AlreadyMember, r)) /\
  (client ∉ clients r ->
   addClient client r = (inr (), with_clients (clients r ++ [client]) r)) /\
  ((removeClient client now r).1 = inl NotMember <-> client ∉ clients r) /\
  (client ∉ clients r -> removeClient client now r = (inl NotMember, r)) /\
  (client ∈ clients r ->
   exists before after,
     clients r = before ++ client :: after /\ (client ∉ before) /\
     removeClient client now r =
       (inr (), with_lastDisconnectTime now (with_clients (before ++ after) r)) /\
     (NoDup (clients r) -> client ∉ before ++ after) /\
     lastDisconnectTime (removeClient client now r).2 = now /\
     forall earlier, earlier <= now ->
       earlier <= lastDisconnectTime (removeClient client now r).2).
Proof.
  rewrite addClient_eval, removeClient_eval.
  destruct (includes (clients r) client) eqn:Hinc.
  - apply includes_elem_of in Hinc as Hin.
    destruct (indexOf_splice _ _ Hin) as (before & after & Hcs & Hnot & Hidx & Hspl).
    rewrite bool_decide_false by (rewrite indexOf_absent; by intros Hnot').
    rewrite Hspl. simpl.
    repeat split; intros; try done.
    exists before, after. repeat split; try done; try lia.
    intros Hnd. rewrite Hcs in Hnd.
    apply NoDup_app in Hnd as (_ & _ & Hnd).
    apply NoDup_cons in Hnd as [Hafter _].
    rewrite elem_of_app. by intros [Hb|Ha].
  - apply includes_not_elem_of in Hinc as Hnin.
    rewrite bool_decide_true by (by apply indexOf_absent).
    simpl. repeat split; intros; done.
Qed.

Lemma all_listed_spec keys names :
  all_listed keys names = true <-> forall key, key ∈ keys -> key ∈ names.
Proof.
  induction keys as [|key keys IH]; simpl.
  - split; [by intros _ ? ?%elem_of_nil | done].
  - case_bool_decide as Hidx.
    + apply indexOf_absent in Hidx. split; [done |].
      intros Hall. destruct Hidx. apply Hall. by left.
    + rewrite indexOf_absent in Hidx. rewrite IH. split.
      * intros Hall key' [->|Hin]%elem_of_cons; [| by apply Hall].
        by apply dec_stable.
      * intros Hall key' Hin. apply Hall. by right.
Qed.

Lemma keys_dom (vs : gmap string string) key :
  key ∈ (map_to_list vs).*1 <-> key ∈ dom vs.
Proof.
  rewrite elem_of_dom, list_elem_of_fmap. split.
  - intros ([key' value] & -> & Hin). apply elem_of_map_to_list in Hin.
    by eexists.
  - intros [value Hvalue]. exists (key, value). split; [done |].
    by apply elem_of_map_to_list.
Qed.

(** On a list without repetition the answer decides equality of the two
    sets of names. *)
Lemma matchesVariableList_decides names r :
  NoDup names ->
  matchesVariableList names r =
    (inr (bool_decide (list_to_set names =@{gset string} dom (variables r))), r).
Proof.
  intros Hnd. rewrite matchesVariableList_eval. do 2 f_equal.
  pose proof (size_list_to_set (C := gset string) names Hnd) as Hsize.
  pose proof (size_dom (D := gset string) (variables r)) as Hdom.
  destruct (Z.eqb_spec (Z.of_nat (length names)) (Z.of_nat (size (variables r))))
    as [Hlen|Hlen]; simpl.
  - destruct (all_listed _ names) eqn:Hall; symmetry.
    + apply bool_decide_eq_true. symmetry.
      apply set_subseteq_size_eq; [| lia].
      intros key Hkey. apply elem_of_list_to_set.
      apply all_listed_spec with (key := key) in Hall; [done |].
      by apply keys_dom.
    + apply bool_decide_eq_false. intros Heq.
      assert (all_listed (map_to_list (variables r)).*1 names = true);
        [| congruence].
      apply all_listed_spec. intros key Hkey%keys_dom.
      rewrite <- Heq in Hkey. by apply elem_of_list_to_set in Hkey.
  - symmetry. apply bool_decide_eq_false. intros Heq.
    rewrite Heq in Hsize. lia.
Qed.

(** C8. For a list [names] without repetition,
    [matchesVariableList(names)] returns [true] exactly when the set of
    the strings of [names] is the set of the names of the stored
    variables, strings being compared as they are; it returns the same
    for every reordering of [names]. *)
Theorem matchesVariableList_set_equality (names : list string) (r : t) :
  NoDup names ->
  (exists answer, matchesVariableList names r = (inr answer, r)) /\
  ((matchesVariableList names r).1 = inr true <->
   list_to_set names =@{gset string} dom (variables r)) /\
  (forall reordered, reordered ≡ₚ names ->
     (matchesVariableList reordered r).1 = (matchesVariableList names r).1).
Proof.
  intros Hnd. rewrite matchesVariableList_decides by done. simpl.
  split; [by eexists |]. split.
  - split.
    + intros [= Hdec]. by apply bool_decide_eq_true in Hdec.
    + intros Heq. by rewrite bool_decide_true.
  - intros reordered Hperm.
    rewrite matchesVariableList_decides by (by rewrite Hperm). simpl.
    by rewrite (list_to_set_perm_L reordered names Hperm).
Qed.

(** C10. [create] and [set] leave [id], [clients] and
    [lastDisconnectTime] as they were; [addClient] leaves [id],
    [variables] and [lastDisconnectTime]; [removeClient] leaves [id] and
    [variables]; and [has], [hasClientWithUsername],
    [matchesVariableList], [getClients] and [getAllVariables] leave the
    whole room as it was. *)
Theorem frame_separation
    (name value uname : string) (names : list string)
    (client : Client) (now : Z) (r : t) :
  (let after := (create name value r).2 in
   id after = id r /\ clients after = clients r /\
   lastDisconnectTime after = lastDisconnectTime r) /\
  (let after := (set name value r).2 in
   id after = id r /\ clients after = clients r /\
   lastDisconnectTime after = lastDisconnectTime r) /\
  (let after := (addClient client r).2 in
   id after = id r /\ variables after = variables r /\
   lastDisconnectTime after = lastDisconnectTime r) /\
  (let after := (removeClient client now r).2 in
   id after = id r /\ variables after = variables r) /\
  (has name r).2 = r /\
  (hasClientWithUsername uname r).2 = r /\
  (matchesVariableList names r).2 = r /\
  (getClients r).2 = r /\
  (getAllVariables r).2 = r.
Proof.
  rewrite create_eval, set_eval, addClient_eval, removeClient_eval,
    matchesVariableList_eval.
  repeat split; simpl;
    repeat match goal with
           | |- context [if ?b then _ else _] => destruct b
           end; done.
Qed.

Abbreviation exec := (exec isValidVariableName isValidVariableValue username).
Abbreviation execs := (execs isValidVariableName isValidVariableValue username).
Abbreviation username_checked :=
  (username_checked isValidVariableName isValidVariableValue username).

(** A [false] answer of [hasClientWithUsername] means that no connected
    client has that username, letter case apart. *)
Lemma hasClientWithUsername_false name r :
  (hasClientWithUsername name r).1 = inr false ->
  forall i, i ∈ clients r -> toLowerCase (username i) <> toLowerCase name.
Proof.
  rewrite hasClientWithUsername_eval. simpl. intros [= Hnone] i Hin Heq.
  assert (existsb
            (fun i => String.eqb (toLowerCase (username i)) (toLowerCase name))
            (clients r) = true) as Hsome; [| congruence].
  apply existsb_exists. exists i. split; [by apply list_elem_of_In |].
  by apply String.eqb_eq.
Qed.

(** One call keeps the client references distinct. *)
Lemma exec_keeps_distinct o r :
  NoDup (clients r) -> NoDup (clients (exec o r)).
Proof.
  intros Hnd. destruct o as [client|client now| | | | | | |]; simpl;
    try done.
  - rewrite addClient_eval.
    destruct (includes (clients r) client) eqn:Hinc; [done |]. simpl.
    apply includes_not_elem_of in Hinc.
    apply NoDup_app. split; [done |]. split; [| apply NoDup_singleton].
    intros x Hx Hx'. apply list_elem_of_singleton in Hx'. by subst x.
  - rewrite removeClient_eval. case_bool_decide as Hidx; [done |].
    rewrite indexOf_absent in Hidx. apply dec_stable in Hidx.
    destruct (indexOf_splice _ _ Hidx) as (before & after & Hcs & _ & _ & ->).
    simpl. rewrite Hcs in Hnd. apply NoDup_app in Hnd as (Hb & Hdisj & Ha).
    apply NoDup_cons in Ha as [_ Ha].
    apply NoDup_app. split; [done |]. split; [| done].
    intros x Hx Hx'. apply (Hdisj x Hx). by right.
  - rewrite create_eval.
    repeat match goal with
           | |- context [if ?b then _ else _] => destruct b
           end; done.
  - rewrite set_eval.
    repeat match goal with
           | |- context [if ?b then _ else _] => destruct b
           end; done.
  - by rewrite matchesVariableList_eval.
Qed.

Lemma execs_keep_distinct ops : forall r,
  NoDup (clients r) -> NoDup (clients (execs ops r)).
Proof.
  induction ops as [|o ops IH]; intros r Hnd; simpl; [done |].
  by apply IH, exec_keeps_distinct.
Qed.

(** When the caller has checked the username before an [addClient], one
    call keeps the usernames distinct too. *)
Lemma exec_keeps_unique o r :
  usernames_unique username r ->
  match o with
  | CallAddClient client =>
      (hasClientWithUsername (username client) r).1 = inr false
  | _ => True
  end ->
  usernames_unique username (exec o r).
Proof.
  intros Huniq Hcheck. destruct o as [client|client now| | | | | | |]; simpl;
    try done.
  - pose proof (hasClientWithUsername_false _ _ Hcheck) as Hfree.
    assert (client ∉ clients r) as Hnew.
    { intros Hin. by apply (Hfree client Hin). }
    rewrite addClient_eval.
    rewrite (proj2 (includes_not_elem_of _ _) Hnew). simpl.
    intros c1 c2 Hc1 Hc2 Hne. simpl in *.
    rewrite elem_of_app, list_elem_of_singleton in Hc1, Hc2.
    destruct Hc1 as [Hc1| ->], Hc2 as [Hc2| ->].
    + by apply Huniq.
    + by apply Hfree.
    + intros Heq. by apply (Hfree c2 Hc2).
    + done.
  - rewrite removeClient_eval. case_bool_decide as Hidx; [done |].
    rewrite indexOf_absent in Hidx. apply dec_stable in Hidx.
    destruct (indexOf_splice _ _ Hidx) as (before & after & Hcs & _ & _ & ->).
    simpl.
    assert (forall x, x ∈ before ++ after -> x ∈ clients r) as Hsub.
    { intros x. rewrite Hcs, !elem_of_app, elem_of_cons.
      intros [Hb|Ha]; [by left | by right; right]. }
    intros c1 c2 Hc1 Hc2. apply Huniq; by apply Hsub.
  - rewrite create_eval.
    repeat match goal with
           | |- context [if ?b then _ else _] => destruct b
           end; done.
  - rewrite set_eval.
    repeat match goal with
           | |- context [if ?b then _ else _] => destruct b
           end; done.
  - by rewrite matchesVariableList_eval.
Qed.

Lemma execs_keep_unique ops : forall r,
  usernames_unique username r ->
  username_checked ops r ->
  usernames_unique username (execs ops r).
Proof.
  induction ops as [|o ops IH]; intros r Huniq Hchecked; simpl; [done |].
  destruct Hchecked as [Hcheck Hrest].
  apply IH; [by apply exec_keeps_unique | done].
Qed.

(** C2, as the code has it. [addClient] compares client references
    only. From a new room, every sequence of calls keeps the references
    in [clients] distinct; and when each [addClient(c)] of the sequence
    is made only after [hasClientWithUsername(c.username)] has answered
    [false], and usernames do not change meanwhile, no two different
    connected clients have the same username, letter case apart. *)
Theorem usernames_unique_when_checked (room_id : string) (ops : list op) :
  NoDup (clients (execs ops (new room_id))) /\
  (username_checked ops (new room_id) ->
   usernames_unique username (execs ops (new room_id))).
Proof.
  split.
  - apply execs_keep_distinct, NoDup_nil_2.
  - intros Hchecked. apply execs_keep_unique; [| done].
    intros c1 c2 Hc1. by apply elem_of_nil in Hc1.
Qed.
End RoomCalls.

(** * Worked examples *)

Example hasClientWithUsername_ignores_case :
  (Room.hasClientWithUsername alice_and_bob "Alice"
     (Room.addClient 1%nat (Room.new "room")).2).1 = inr true.
Proof. reflexivity. Qed.

Example matchesVariableList_any_order :
  (Room.matchesVariableList ["y"; "x"] room_xy).1 = inr true /\
  (Room.matchesVariableList ["x"; "y"] room_xy).1 = inr true /\
  (Room.matchesVariableList ["x"; "Y"] room_xy).1 = inr false.
Proof. repeat split; reflexivity. Qed.

Lemma create_precedence_witness :
  Room.create nonempty short "" "12345" room_xy = (inl Room.InvalidName, room_xy) /\
  Room.create nonempty short "x" "12345" room_xy = (inl Room.InvalidValue, room_xy) /\
  Room.create nonempty short "x" "3" room_xy_full
    = (inl Room.AlreadyExists, room_xy_full) /\
  Room.create nonempty short "z" "3" room_xy_full
    = (inl Room.Capacity, room_xy_full) /\
  (Room.has "z" (Room.create nonempty short "z" "3" room_xy).2).1 = inr true.
Proof.
  split.
  { by apply (create_precedence nonempty short "" "12345" room_xy). }
  split.
  { by apply (create_precedence nonempty short "x" "12345" room_xy). }
  split.
  { apply (create_precedence nonempty short "x" "3" room_xy_full);
      [reflexivity | reflexivity | by exists "1"%string]. }
  split.
  { apply (create_precedence nonempty short "z" "3" room_xy_full);
      [reflexivity | reflexivity | reflexivity | by vm_compute]. }
  apply (create_precedence nonempty short "z" "3" room_xy);
    [reflexivity | reflexivity | reflexivity | by vm_compute].
Defined.

Lemma set_overwrites_witness :
  Room.set nonempty short "" "12345" room_xy = (inl Room.InvalidName, room_xy) /\
  Room.set nonempty short "x" "12345" room_xy = (inl Room.InvalidValue, room_xy) /\
  Room.set nonempty short "z" "3" room_xy = (inl Room.NotFound, room_xy) /\
  exists shown,
    (Room.getAllVariables (Room.set nonempty short "x" "3" room_xy).2).1
      = inr shown /\
    shown !! "x"%string = Some "3"%string /\
    (forall other, other <> "x"%string ->
       shown !! other = Room.variables room_xy !! other) /\
    size shown = size (Room.variables room_xy).
Proof.
  split.
  { by apply (set_overwrites nonempty short "" "12345" room_xy). }
  split.
  { by apply (set_overwrites nonempty short "x" "12345" room_xy). }
  split.
  { by apply (set_overwrites nonempty short "z" "3" room_xy). }
  apply (set_overwrites nonempty short "x" "3" room_xy);
    [reflexivity | reflexivity | by exists "1"%string].
Defined.

Lemma membership_errors_witness :
  Room.addClient 1%nat (Room.with_clients [1%nat; 2%nat] (Room.new "room"))
    = (inl Room.AlreadyMember, Room.with_clients [1%nat; 2%nat] (Room.new "room")) /\
  Room.removeClient 3%nat 50 (Room.with_clients [1%nat; 2%nat] (Room.new "room"))
    = (inl Room.NotMember, Room.with_clients [1%nat; 2%nat] (Room.new "room")) /\
  Room.addClient 3%nat (Room.with_clients [1%nat; 2%nat] (Room.new "room"))
    = (inr (), Room.with_clients [1%nat; 2%nat; 3%nat] (Room.new "room")) /\
  Room.lastDisconnectTime
    (Room.removeClient 1%nat 50
       (Room.with_clients [1%nat; 2%nat] (Room.new "room"))).2 = 50.
Proof.
  pose (r := Room.with_clients [1%nat; 2%nat] (Room.new "room")).
  assert (1%nat ∈ Room.clients r) as Hin by (by left).
  assert (3%nat ∉ Room.clients r) as Hout.
  { intros H. by repeat (apply elem_of_cons in H as [H|H]; [done |]);
      apply elem_of_nil in H. }
  split.
  { by apply (membership_errors 1%nat 50 r). }
  split.
  { by apply (membership_errors 3%nat 50 r). }
  split.
  { by apply (membership_errors 3%nat 50 r). }
  destruct (membership_errors 1%nat 50 r) as (_ & _ & _ & _ & _ & Hremove).
  destruct (Hremove Hin) as (before & after & _ & _ & _ & _ & Htime & _).
  exact Htime.
Defined.

Lemma matchesVariableList_set_equality_witness :
  (Room.matchesVariableList ["y"; "x"] room_xy).1 = inr true <->
  list_to_set ["y"; "x"] =@{gset string} dom (Room.variables room_xy).
Proof.
  apply (matchesVariableList_set_equality ["y"; "x"] room_xy).
  apply NoDup_cons. split.
  - intros H. apply list_elem_of_singleton in H. discriminate H.
  - apply NoDup_singleton.
Defined.

Lemma usernames_unique_when_checked_witness :
  usernames_unique alice_and_bob
    (execs nonempty short alice_and_bob
       [CallAddClient 1%nat; CallCreate "x" "1"; CallAddClient 2%nat;
        CallRemoveClient 1%nat 50]
       (Room.new "room")).
Proof.
  apply (usernames_unique_when_checked nonempty short alice_and_bob "room").
  repeat split; reflexivity.
Defined.

(** C2, as stated, fails: two different clients whose usernames differ
    in letter case only are both added to a new room. *)
Lemma addClient_accepts_same_username :
  Room.addClient 1%nat (Room.new "room")
    = (inr (), Room.with_clients [1%nat] (Room.new "room")) /\
  Room.addClient 2%nat (Room.with_clients [1%nat] (Room.new "room"))
    = (inr (), Room.with_clients [1%nat; 2%nat] (Room.new "room")) /\
  ~ usernames_unique alice_and_Alice
      (execs nonempty short alice_and_Alice
         [CallAddClient 1%nat; CallAddClient 2%nat] (Room.new "room")).
Proof.
  split; [reflexivity |]. split; [reflexivity |].
  intros Huniq. apply (Huniq 1%nat 2%nat).
  - by left.
  - right. by left.
  - done.
  - reflexivity.
Qed.

(** * Further properties of the rate limiter *)

Section RateLimiterWindow.
Import RateLimiter.
Variables N T : Z.
Abbreviation n := (Z.to_nat N).

(** One call on a limiter whose history holds at most [n] readings,
    [period] being the front of the history once [now] is pushed. *)
Lemma rateLimited_window now l period :
  maxOperations l = N -> timePeriod l = T ->
  (length (history l) <= n)%nat ->
  (history l ++ [now]) !! 0%nat = Some period ->
  rateLimited now l =
    (if decide (length (history l) < n)%nat then false
     else bool_decide (now - period < T),
     with_history (drop (length (history l) + 1 - n) (history l ++ [now])) l).
Proof.
  intros HN HT Hlen Hfront.
  destruct (decide (length (history l) < Z.to_nat N)%nat) as [Hroom|Hfull].
  - rewrite rateLimited_room by lia.
    by replace (length (history l) + 1 - Z.to_nat N)%nat with 0%nat by lia.
  - destruct (history l) as [|p h] eqn:Hh; simpl in *.
    + injection Hfront as <-.
      rewrite rateLimited_zero by (done || lia). rewrite HT.
      by replace (1 - Z.to_nat N)%nat with 1%nat by lia.
    + injection Hfront as <-.
      rewrite (rateLimited_full now l p h Hh) by (rewrite Hh; simpl; lia).
      rewrite HT.
      by replace (S (length h + 1) - Z.to_nat N)%nat with 1%nat by lia.
Qed.

Lemma run_length nows : forall l, length (run nows l).1 = length nows.
Proof.
  induction nows as [|now nows IH]; intros l; simpl; [done |].
  destruct (rateLimited now l) as [b l1].
  specialize (IH l1). destruct (run nows l1) as [bs l2]. simpl in *.
  by rewrite IH.
Qed.

(** A run on a limiter whose history holds at most [n] readings: the
    history afterwards is the last [n] of all readings, and the call at
    position [p] of all readings is compared with the one [n] places
    before it. *)
Lemma run_window nows : forall l,
  maxOperations l = N -> timePeriod l = T ->
  (length (history l) <= n)%nat ->
  history (run nows l).2
    = drop (length (history l ++ nows) - n) (history l ++ nows) /\
  forall j now, nows !! j = Some now ->
    ((length (history l) + j < n)%nat -> (run nows l).1 !! j = Some false) /\
    (forall period,
       (n <= length (history l) + j)%nat ->
       (history l ++ nows) !! (length (history l) + j - n)%nat = Some period ->
       (run nows l).1 !! j = Some (bool_decide (now - period < T))).
Proof.
  induction nows as [|now nows IH]; intros l HN HT Hlen.
  { simpl. rewrite app_nil_r. split; [| done].
    by replace (length (history l) - n)%nat with 0%nat by lia. }
  assert (exists period0, (history l ++ [now]) !! 0%nat = Some period0)
    as [period0 Hfront].
  { destruct (history l); by eexists. }
  pose proof (rateLimited_window now l period0 HN HT Hlen Hfront) as Hstep.
  set (k := (length (history l) + 1 - n)%nat) in *.
  simpl. rewrite Hstep.
  set (l1 := with_history (drop k (history l ++ [now])) l).
  assert (history l1 ++ nows = drop k (history l ++ now :: nows)) as Hall.
  { subst l1. simpl.
    replace (history l ++ now :: nows) with ((history l ++ [now]) ++ nows)
      by (by rewrite <- app_assoc).
    rewrite (drop_app_le (history l ++ [now]) nows); [done |].
    rewrite length_app. simpl. lia. }
  assert (length (history l1) = (length (history l) + 1 - k)%nat) as Hlen1.
  { subst l1. simpl. rewrite length_drop, length_app. simpl. lia. }
  destruct (IH l1) as [Hhist Hanswers]; [by subst l1 | by subst l1 | lia |].
  destruct (run nows l1) as [bs l2]. simpl in *. split.
  - rewrite Hhist, Hall, drop_drop. f_equal.
    rewrite length_drop, !length_app. simpl. lia.
  - intros [|j] now' Hnow'; simpl in *.
    + injection Hnow' as <-. split.
      * intros Hlt. by rewrite decide_True by lia.
      * intros period Hge Hperiod. rewrite decide_False by lia.
        replace (length (history l) + 0 - n)%nat with 0%nat in Hperiod by lia.
        replace (history l ++ now :: nows) with ((history l ++ [now]) ++ nows)
          in Hperiod by (by rewrite <- app_assoc).
        rewrite lookup_app_l in Hperiod by (rewrite length_app; simpl; lia).
        rewrite Hfront in Hperiod. by injection Hperiod as ->.
    + destruct (Hanswers j now' Hnow') as [Hfalse Hcompare]. split.
      * intros Hlt. apply Hfalse. lia.
      * intros period Hge Hperiod. apply Hcompare; [lia |].
        rewrite Hall, lookup_drop, <- Hperiod. f_equal. lia.
Qed.

(** The history of a limiter run from new is the last [maxOperations]
    clock readings of the run (none when [maxOperations <= 0]). *)
Theorem history_holds_last_readings (nows : list Z) :
  history (run nows (new N T)).2 = drop (length nows - n) nows.
Proof.
  destruct (run_window nows (new N T)) as [Hhist _]; simpl; try done; lia.
Qed.

(** In a run from a new limiter the first [maxOperations] calls answer
    [false], and every later call answers whether it comes less than
    [timePeriod] after the call [maxOperations] places before it,
    whatever the earlier answers were. *)
Theorem answer_compares_with_nth_previous (nows : list Z) (i : nat) (now : Z) :
  nows !! i = Some now ->
  ((i < n)%nat -> (run nows (new N T)).1 !! i = Some false) /\
  (forall period,
     (n <= i)%nat -> nows !! (i - n)%nat = Some period ->
     (run nows (new N T)).1 !! i = Some (bool_decide (now - period < T))).
Proof.
  intros Hnow.
  destruct (run_window nows (new N T)) as [_ Hanswers]; simpl; try done;
    [lia |].
  by apply Hanswers.
Qed.

Lemma nondecreasing_lookup (h : list Z) (i j : nat) (x y : Z) :
  nondecreasing h -> (i <= j)%nat -> h !! i = Some x -> h !! j = Some y ->
  x <= y.
Proof.
  intros Hs Hij Hi Hj.
  destruct (decide (i = j)) as [->|Hne]; [by simplify_eq |].
  rewrite <- (take_drop (S i) h) in Hs.
  apply (StronglySorted_app_1_elem_of _ _ _ x y) in Hs; [done | |].
  - apply list_elem_of_lookup. exists i. rewrite lookup_take_lt; [done | lia].
  - apply list_elem_of_lookup. exists (j - S i)%nat.
    rewrite lookup_drop, <- Hj. f_equal. lia.
Qed.

(** With a clock that does not go backward, a call that is answered
    [false] comes at least [timePeriod] after every call made
    [maxOperations] or more places before it: more than
    [maxOperations] calls never fit in a shorter period ending at an
    accepted call. *)
Theorem accepted_call_closes_full_period
    (nows : list Z) (i j : nat) (earlier now : Z) :
  nondecreasing nows ->
  (i + n <= j)%nat ->
  nows !! i = Some earlier -> nows !! j = Some now ->
  (run nows (new N T)).1 !! j = Some false ->
  T <= now - earlier.
Proof.
  intros Hs Hij Hi Hj Hanswer.
  assert (exists period, nows !! (j - n)%nat = Some period) as [period Hperiod].
  { apply lookup_lt_is_Some. apply lookup_lt_Some in Hj. lia. }
  destruct (run_window nows (new N T)) as [_ Hanswers]; simpl; try done;
    [lia |].
  destruct (Hanswers j now Hj) as [_ Hcompare]. simpl in Hcompare.
  rewrite (Hcompare period) in Hanswer by (done || lia).
  injection Hanswer as Hanswer. apply bool_decide_eq_false in Hanswer.
  pose proof (nondecreasing_lookup nows i (j - n) earlier period Hs) as Hle.
  specialize (Hle ltac:(lia) Hi Hperiod). lia.
Qed.

(** With [timePeriod <= 0] and a clock that does not go backward, no
    call of a run from a new limiter is limited. *)
Theorem nonpositive_period_never_limits (nows : list Z) :
  T <= 0 -> nondecreasing nows ->
  (run nows (new N T)).1 = replicate (length nows) false.
Proof.
  intros HT Hs. apply list_eq. intros i.
  destruct (nows !! i) as [now|] eqn:Hnow.
  - rewrite lookup_replicate_2 by (by eapply lookup_lt_Some).
    destruct (run_window nows (new N T)) as [_ Hanswers]; simpl; try done;
      [lia |].
    destruct (Hanswers i now Hnow) as [Hfalse Hcompare]. simpl in *.
    destruct (decide (i < n)%nat) as [Hlt|Hge]; [by apply Hfalse |].
    assert (exists period, nows !! (i - n)%nat = Some period) as [period Hperiod].
    { apply lookup_lt_is_Some. apply lookup_lt_Some in Hnow. lia. }
    rewrite (Hcompare period) by (done || lia).
    pose proof (nondecreasing_lookup nows (i - n) i period now Hs) as Hle.
    specialize (Hle ltac:(lia) Hperiod Hnow).
    by rewrite bool_decide_false by lia.
  - apply lookup_ge_None in Hnow.
    transitivity (@None bool).
    + apply lookup_ge_None. rewrite run_length. lia.
    + symmetry. by apply lookup_replicate_None.
Qed.
End RateLimiterWindow.

Lemma answer_compares_with_nth_previous_witness :
  (RateLimiter.run [0; 100; 200; 1300] (RateLimiter.new 2 1000)).1 !! 2%nat
    = Some (bool_decide (200 - 0 < 1000)).
Proof.
  apply (answer_compares_with_nth_previous 2 1000 [0; 100; 200; 1300] 2 200);
    [reflexivity | simpl; lia | reflexivity].
Defined.

Lemma accepted_call_closes_full_period_witness : 1000 <= 1300 - 100.
Proof.
  apply (accepted_call_closes_full_period 2 1000 [0; 100; 200; 1300] 1 3);
    [repeat constructor; lia | simpl; lia | reflexivity | reflexivity
    | reflexivity].
Defined.

Lemma nonpositive_period_never_limits_witness :
  (RateLimiter.run [5; 5; 6] (RateLimiter.new 1 0)).1
    = replicate (length [5; 5; 6]) false.
Proof.
  apply (nonpositive_period_never_limits 1 0 [5; 5; 6]);
    [lia | repeat constructor; lia].
Defined.

Section RateLimiterEdges.
Import RateLimiter.

(** With [maxOperations >= 1] every call leaves its own clock reading
    at the back of the history, whether it answers [true] or [false]:
    a refused attempt counts against the calls that follow. *)
Theorem attempt_is_always_recorded (now : Z) (l : t) :
  1 <= maxOperations l ->
  last (history (rateLimited now l).2) = Some now.
Proof.
  intros HN. unfold rateLimited, push.
  rewrite length_app. simpl.
  destruct (Z.gtb_spec (Z.of_nat (length (history l) + 1)) (maxOperations l));
    [| simpl; apply last_snoc].
  destruct (history l) as [|p h]; simpl in *; [lia |].
  apply last_snoc.
Qed.

Lemma attempt_is_always_recorded_witness :
  last (history (rateLimited 200 (mk 2 1000 [0; 100])).2) = Some 200.
Proof. apply (attempt_is_always_recorded 200 (mk 2 1000 [0; 100])). simpl. lia. Defined.

Lemma run_without_capacity nows : forall l,
  maxOperations l <= 0 -> history l = [] ->
  run nows l = (replicate (length nows) (bool_decide (0 < timePeriod l)), l).
Proof.
  induction nows as [|now nows IH]; intros l Hmax Hh; simpl; [done |].
  rewrite rateLimited_zero by done.
  assert (with_history [] l = l) as -> by (destruct l; simpl in *; by subst).
  rewrite IH by done. do 3 f_equal. apply bool_decide_ext. lia.
Qed.

(** A limiter built with [maxOperations <= 0] keeps no history: every
    call of a run from the new limiter gives the same answer, [true]
    when [timePeriod > 0] and [false] otherwise. *)
Theorem nonpositive_capacity_constant_answer (N T : Z) (nows : list Z) :
  N <= 0 ->
  run nows (new N T) = (replicate (length nows) (bool_decide (0 < T)), new N T).
Proof. intros HN. by apply run_without_capacity. Qed.

Lemma nonpositive_capacity_constant_answer_witness :
  run [3; 4] (new (-1) 0) = (replicate (length [3; 4]) (bool_decide (0 < 0)), new (-1) 0).
Proof. apply (nonpositive_capacity_constant_answer (-1) 0 [3; 4]). lia. Defined.
End RateLimiterEdges.

(** * Further properties of the room *)

Section RoomInvariants.
Import Room.
Variables isValidVariableName isValidVariableValue : string -> bool.
Variable username : Client -> string.

Abbreviation create := (Room.create isValidVariableName isValidVariableValue).
Abbreviation set := (Room.set isValidVariableName isValidVariableValue).
Abbreviation hasClientWithUsername := (Room.hasClientWithUsername username).
Abbreviation exec := (exec isValidVariableName isValidVariableValue username).
Abbreviation execs := (execs isValidVariableName isValidVariableValue username).

(** What one call may change: the room after it is the room before it
    with one of these four updates, or unchanged. *)
Lemma exec_cases o r :
  exec o r = r \/
  (exists name value,
     (o = CallCreate name value \/ o = CallSet name value) /\
     isValidVariableName name = true /\ isValidVariableValue value = true /\
     (variables r !! name = None ->
      o = CallCreate name value /\
      Z.of_nat (size (variables r)) < maxVariables r) /\
     exec o r = with_variables (<[name := value]> (variables r)) r) \/
  (exists client,
     o = CallAddClient client /\ (client ∉ clients r) /\
     exec o r = with_clients (clients r ++ [client]) r) \/
  (exists client now before after,
     o = CallRemoveClient client now /\
     clients r = before ++ client :: after /\ (client ∉ before) /\
     exec o r = with_lastDisconnectTime now (with_clients (before ++ after) r)).
Proof.
  destruct o as [client|client now| | |name value|name value| | |]; simpl;
    try (by left).
  - rewrite addClient_eval.
    destruct (includes (clients r) client) eqn:Hinc; [by left |].
    apply includes_not_elem_of in Hinc.
    right; right; left. by exists client.
  - rewrite removeClient_eval. case_bool_decide as Hidx; [by left |].
    rewrite indexOf_absent in Hidx. apply dec_stable in Hidx.
    destruct (indexOf_splice _ _ Hidx) as (before & after & Hcs & Hnot & _ & ->).
    do 3 right. by exists client, now, before, after.
  - rewrite create_eval.
    destruct (isValidVariableName name) eqn:Hname; simpl; [| by left].
    destruct (isValidVariableValue value) eqn:Hvalue; simpl; [| by left].
    case_bool_decide as Hpresent; [by left |].
    destruct (Z.geb_spec (Z.of_nat (size (variables r))) (maxVariables r));
      [by left |].
    right; left. exists name, value. repeat split; auto.
  - rewrite set_eval.
    destruct (isValidVariableName name) eqn:Hname; simpl; [| by left].
    destruct (isValidVariableValue value) eqn:Hvalue; simpl; [| by left].
    case_bool_decide as Hpresent; simpl; [| by left].
    right; left. exists name, value.
    repeat split; auto; destruct Hpresent; congruence.
  - left. by rewrite matchesVariableList_eval.
Qed.


(** Every variable of a room reached from a new room was accepted by
    both validators when it was written. *)
Theorem stored_variables_are_valid
    (room_id : string) (ops : list op) (name value : string) :
  variables (execs ops (new room_id)) !! name = Some value ->
  isValidVariableName name = true /\ isValidVariableValue value = true.
Proof.
  assert (forall r,
    (forall k v, variables r !! k = Some v ->
       isValidVariableName k = true /\ isValidVariableValue v = true) ->
    forall k v, variables (execs ops r) !! k = Some v ->
       isValidVariableName k = true /\ isValidVariableValue v = true) as Hkeep.
  { induction ops as [|o ops IH]; intros r Hvalid; simpl; [done |].
    apply IH.
    destruct (exec_cases o r)
      as [->|[(name' & value' & _ & Hn & Hv & _ & ->)
          |[(client & _ & _ & ->)|(client & now & before & after & _ & _ & _ & ->)]]];
      simpl; try done.
    intros k v. rewrite lookup_insert_Some.
    intros [[<- <-]|[_ Hold]]; [done | by eapply Hvalid]. }
  apply Hkeep. intros k v. simpl. by rewrite lookup_empty.
Qed.

(** No method deletes a variable: a name that is present stays present
    through every sequence of calls. *)
Theorem variables_are_never_deleted (ops : list op) (r : t) (name : string) :
  is_Some (variables r !! name) ->
  is_Some (variables (execs ops r) !! name).
Proof.
  revert r. induction ops as [|o ops IH]; intros r Hpresent; simpl; [done |].
  apply IH.
  destruct (exec_cases o r)
    as [->|[(name' & value' & _ & _ & _ & _ & ->)
        |[(client & _ & _ & ->)|(client & now & before & after & _ & _ & _ & ->)]]];
    simpl; try done.
  rewrite lookup_insert_is_Some. destruct (decide (name' = name)); auto.
Qed.

(** The clients of a room reached from a new room were all added by an
    [addClient] of the sequence, and [lastDisconnectTime] is [-1] or the
    clock reading of a [removeClient] of the sequence. *)
Theorem membership_comes_from_calls (room_id : string) (ops : list op) :
  (forall client, client ∈ clients (execs ops (new room_id)) ->
     CallAddClient client ∈ ops) /\
  (lastDisconnectTime (execs ops (new room_id)) = -1 \/
   exists client now,
     CallRemoveClient client now ∈ ops /\
     lastDisconnectTime (execs ops (new room_id)) = now).
Proof.
  assert (forall r,
    (forall client, client ∈ clients (execs ops r) ->
       client ∈ clients r \/ CallAddClient client ∈ ops) /\
    (lastDisconnectTime (execs ops r) = lastDisconnectTime r \/
     exists client now,
       CallRemoveClient client now ∈ ops /\
       lastDisconnectTime (execs ops r) = now)) as Hgen.
  { induction ops as [|o ops IH]; intros r; simpl; [by split; auto |].
    destruct (IH (exec o r)) as [Hclients Htime].
    destruct (exec_cases o r)
      as [Heq|[(name' & value' & _ & _ & _ & _ & Heq)
          |[(client & -> & _ & Heq)
           |(client & now & before & after & -> & Hcs & _ & Heq)]]];
      simpl in *; rewrite Heq in *; simpl in *.
    - split.
      + intros c Hc. destruct (Hclients c Hc); [by left | right; by right].
      + destruct Htime as [->|(c & t' & Hin & ->)]; [by left |].
        right. exists c, t'. split; [by right | done].
    - split.
      + intros c Hc. destruct (Hclients c Hc); [by left | right; by right].
      + destruct Htime as [->|(c & t' & Hin & ->)]; [by left |].
        right. exists c, t'. split; [by right | done].
    - split.
      + intros c Hc. destruct (Hclients c Hc) as [Hin|Hin]; [| right; by right].
        rewrite elem_of_app, list_elem_of_singleton in Hin.
        destruct Hin as [Hin| ->]; [by left | right; by left].
      + destruct Htime as [->|(c & t' & Hin & ->)]; [by left |].
        right. exists c, t'. split; [by right | done].
    - split.
      + intros c Hc. destruct (Hclients c Hc) as [Hin|Hin]; [| right; by right].
        left. rewrite Hcs. rewrite elem_of_app in Hin.
        rewrite elem_of_app, elem_of_cons.
        destruct Hin; [by left | by right; right].
      + destruct Htime as [->|(c & t' & Hin & ->)].
        * right. exists client, now. split; [by left | done].
        * right. exists c, t'. split; [by right | done]. }
  destruct (Hgen (new room_id)) as [Hclients Htime]. split; [| done].
  intros client Hin. destruct (Hclients client Hin) as [Hnil|]; [| done].
  by apply elem_of_nil in Hnil.
Qed.
End RoomInvariants.

Section RoomCompositions.
Import Room.
Variables isValidVariableName isValidVariableValue : string -> bool.
Variable username : Client -> string.

Abbreviation create := (Room.create isValidVariableName isValidVariableValue).
Abbreviation set := (Room.set isValidVariableName isValidVariableValue).
Abbreviation hasClientWithUsername := (Room.hasClientWithUsername username).
Abbreviation execs := (execs isValidVariableName isValidVariableValue username).

Lemma indexOf_back (a : list Client) (x : Client) :
  x ∉ a ->
  indexOf (a ++ [x]) x = Z.of_nat (length a) /\
  splice1 (a ++ [x]) (Z.of_nat (length a)) = a.
Proof.
  intros Hnot. split.
  - induction a as [|y a IH]; simpl; [by rewrite decide_True |].
    apply not_elem_of_cons in Hnot as [Hne Hnot].
    rewrite decide_False by done. rewrite (IH Hnot).
    rewrite decide_False by lia. lia.
  - unfold splice1. rewrite Nat2Z.id, take_app_length.
    rewrite drop_ge by (rewrite length_app; simpl; lia).
    apply app_nil_r.
Qed.

(** Adding a client that is not a member and removing it again gives
    back the room, except that [lastDisconnectTime] is the clock
    reading of the removal. *)
Theorem add_then_remove_restores (client : Client) (now : Z) (r : t) :
  client ∉ clients r ->
  addClient client r = (inr (), with_clients (clients r ++ [client]) r) /\
  removeClient client now (addClient client r).2
    = (inr (), with_lastDisconnectTime now r).
Proof.
  intros Hnot. rewrite addClient_eval.
  rewrite (proj2 (includes_not_elem_of _ _) Hnot). split; [done |].
  rewrite removeClient_eval. simpl.
  destruct (indexOf_back _ _ Hnot) as [Hidx Hspl].
  rewrite Hidx, Hspl. rewrite bool_decide_false by lia.
  by destruct r.
Qed.

(** Removing a member of a room without repeated references and adding
    it again succeeds; the client is then the last of [clients], which
    holds the same clients as before. *)
Theorem remove_then_add_moves_to_back (client : Client) (now : Z) (r : t) :
  NoDup (clients r) -> client ∈ clients r ->
  (removeClient client now r).1 = inr () /\
  (addClient client (removeClient client now r).2).1 = inr () /\
  last (clients (addClient client (removeClient client now r).2).2)
    = Some client /\
  clients (addClient client (removeClient client now r).2).2 ≡ₚ clients r.
Proof.
  intros Hnd Hin.
  destruct (indexOf_splice _ _ Hin) as (before & after & Hcs & Hnot & Hidx & Hspl).
  assert (client ∉ before ++ after) as Hgone.
  { rewrite Hcs in Hnd. apply NoDup_app in Hnd as (_ & _ & Hnd).
    apply NoDup_cons in Hnd as [Hafter _].
    rewrite elem_of_app. by intros [Hb|Ha]. }
  rewrite removeClient_eval, Hspl.
  rewrite bool_decide_false by (rewrite Hidx; lia). simpl.
  rewrite addClient_eval. simpl.
  rewrite (proj2 (includes_not_elem_of _ _) Hgone). simpl.
  repeat split.
  - apply last_snoc.
  - rewrite Hcs, <- app_assoc.
    apply Permutation_app_head. symmetry. apply Permutation_cons_append.
Qed.

(** After a successful [create(name, value)], a second [create] of the
    same name with valid arguments throws [AlreadyExists] and changes
    nothing, while [set(name, value')] succeeds and leaves the room that
    [create(name, value')] would have made. *)
Theorem create_then_set_or_create (name value value' : string) (r : t) :
  (create name value r).1 = inr () ->
  isValidVariableValue value' = true ->
  create name value' (create name value r).2
    = (inl AlreadyExists, (create name value r).2) /\
  set name value' (create name value r).2 = create name value' r.
Proof.
  rewrite !(create_eval _ _ name), set_eval. intros Hok Hvalue'.
  rewrite Hvalue'.
  destruct (isValidVariableName name); simpl in *; [| done].
  destruct (isValidVariableValue value); simpl in *; [| done].
  case_bool_decide as Hpresent; simpl in *; [done |].
  destruct (Z.of_nat (size (variables r)) >=? maxVariables r); simpl in *;
    [done |].
  rewrite !bool_decide_true by (rewrite lookup_insert_eq; by eexists).
  simpl. split; [done |].
  unfold with_variables. simpl. by rewrite insert_insert_eq.
Qed.
End RoomCompositions.

Section RoomQueries.
Import Room.
Variables isValidVariableName isValidVariableValue : string -> bool.
Variable username : Client -> string.

Abbreviation create := (Room.create isValidVariableName isValidVariableValue).
Abbreviation hasClientWithUsername := (Room.hasClientWithUsername username).
Abbreviation execs := (execs isValidVariableName isValidVariableValue username).




(** [matchesVariableList(names)] returns [true] exactly when [names]
    has no repetition and its strings are the names of the stored
    variables: on a list with a repeated name it always returns
    [false]. *)
Theorem matchesVariableList_rejects_repetition (names : list string) (r : t) :
  (matchesVariableList names r).1 = inr true <->
  NoDup names /\ list_to_set names =@{gset string} dom (variables r).
Proof.
  split.
  - intros Htrue. pose proof Htrue as Hanswer.
    rewrite matchesVariableList_eval in Hanswer. simpl in Hanswer.
    injection Hanswer as Hanswer.
    destruct (Z.eqb_spec (Z.of_nat (length names)) (Z.of_nat (size (variables r))))
      as [Hlen|Hlen]; simpl in Hanswer; [| done].
    assert (NoDup names) as Hnd.
    { assert (elements (dom (variables r)) ≡ₚ names) as <-;
        [| apply NoDup_elements].
      apply submseteq_length_Permutation.
      - apply NoDup_submseteq; [apply NoDup_elements |].
        intros key Hkey%elem_of_elements.
        apply all_listed_spec with (key := key) in Hanswer; [done |].
        by apply keys_dom.
      - pose proof (size_dom (D := gset string) (variables r)) as Hdom.
        unfold size at 1, set_size in Hdom. simpl in *. lia. }
    split; [done |].
    rewrite matchesVariableList_decides in Htrue by done.
    simpl in Htrue. injection Htrue as Htrue.
    by apply bool_decide_eq_true in Htrue.
  - intros [Hnd Heq]. rewrite matchesVariableList_decides by done. simpl.
    by rewrite bool_decide_true.
Qed.

Lemma creates_insert (pairs : list (string * string)) : forall r,
  NoDup pairs.*1 ->
  (forall name, name ∈ pairs.*1 -> variables r !! name = None) ->
  Forall (fun pair => isValidVariableName pair.1 = true /\
                      isValidVariableValue pair.2 = true) pairs ->
  Z.of_nat (size (variables r) + length pairs) <= maxVariables r ->
  execs ((fun pair => CallCreate pair.1 pair.2) <$> pairs) r
    = with_variables (list_to_map pairs ∪ variables r) r.
Proof.
  induction pairs as [|[name value] pairs IH]; intros r Hnd Hfresh Hvalid Hsize.
  { simpl. rewrite (left_id_L ∅ (∪)). by destruct r. }
  simpl in *. apply NoDup_cons in Hnd as [Hname Hnd].
  apply Forall_cons in Hvalid as [[Hn Hv] Hvalid]. simpl in *.
  rewrite create_eval, Hn, Hv. simpl.
  rewrite bool_decide_false
    by (rewrite (Hfresh name) by (by left); by intros [? ?]).
  destruct (Z.geb_spec (Z.of_nat (size (variables r))) (maxVariables r));
    [lia |].
  simpl. rewrite IH; simpl; try done.
  - unfold with_variables. simpl. f_equal.
    rewrite <- insert_union_l.
    by rewrite <- insert_union_r by (by apply not_elem_of_list_to_map_1).
  - intros name' Hin. rewrite lookup_insert_ne by (by intros ->).
    apply Hfresh. by right.
  - rewrite map_size_insert_None by (apply Hfresh; by left). lia.
Qed.

(** Creating variables with pairwise different valid names and valid
    values in a new room, at most ten of them, stores exactly them, and
    [matchesVariableList] of their names then returns [true]; after ten
    of them no [create] succeeds any more. *)
Theorem creates_fill_a_new_room
    (room_id : string) (pairs : list (string * string)) :
  NoDup pairs.*1 ->
  Forall (fun pair => isValidVariableName pair.1 = true /\
                      isValidVariableValue pair.2 = true) pairs ->
  (length pairs <= 10)%nat ->
  let filled :=
    execs ((fun pair => CallCreate pair.1 pair.2) <$> pairs) (new room_id) in
  variables filled = list_to_map pairs /\
  (forall name value, (name, value) ∈ pairs ->
     variables filled !! name = Some value) /\
  (matchesVariableList pairs.*1 filled).1 = inr true /\
  (length pairs = 10%nat ->
   forall name value, (create name value filled).1 <> inr ()).
Proof.
  intros Hnd Hvalid Hlen filled. subst filled.
  rewrite creates_insert; simpl; try done; [| rewrite map_size_empty; lia].
  rewrite (right_id_L ∅ (∪)).
  split; [done |]. split; [| split].
  - intros name value Hin. by apply elem_of_list_to_map_1.
  - rewrite matchesVariableList_decides by done. simpl.
    by rewrite bool_decide_true by (by rewrite dom_list_to_map_L).
  - intros Hfull name value. rewrite create_eval. simpl.
    assert (size (list_to_map pairs : gmap string string) = 10%nat) as Hsize.
    { pose proof (size_dom (D := gset string)
                    (list_to_map pairs : gmap string string)) as <-.
      rewrite dom_list_to_map_L, size_list_to_set by done.
      by rewrite length_fmap. }
    rewrite Hsize.
    destruct (negb (isValidVariableName name)); [done |].
    destruct (negb (isValidVariableValue value)); [done |].
    by case_bool_decide.
Qed.

Lemma adds_append (cs : list Client) : forall r,
  NoDup cs -> (forall client, client ∈ cs -> client ∉ clients r) ->
  execs (CallAddClient <$> cs) r = with_clients (clients r ++ cs) r.
Proof.
  induction cs as [|client cs IH]; intros r Hnd Hfresh; simpl.
  { rewrite app_nil_r. by destruct r. }
  apply NoDup_cons in Hnd as [Hclient Hnd].
  rewrite addClient_eval.
  rewrite (proj2 (includes_not_elem_of _ _)) by (apply Hfresh; by left).
  simpl. rewrite IH; simpl; [| done |].
  - unfold with_clients. simpl. by rewrite <- app_assoc.
  - intros c Hc. rewrite elem_of_app, list_elem_of_singleton.
    intros [Hin| ->]; [| done].
    apply (Hfresh c); [by right | done].
Qed.

(** Clients are kept in the order they were added: adding pairwise
    different clients to a new room makes [getClients] return them in
    that order. *)
Theorem getClients_keeps_order (room_id : string) (cs : list Client) :
  NoDup cs ->
  (getClients (execs (CallAddClient <$> cs) (new room_id))).1 = inr cs.
Proof.
  intros Hnd. rewrite adds_append; [done | done |].
  intros client _. apply not_elem_of_nil.
Qed.
End RoomQueries.

(** * Further worked examples *)

(** Closes a decidable goal on concrete data by evaluation. *)
Ltac by_evaluation :=
  match goal with
  | |- ?P => apply (@bool_decide_unpack P _); vm_compute; exact I
  end.


Lemma stored_variables_are_valid_witness :
  nonempty "x" = true /\ short "1" = true.
Proof.
  apply (stored_variables_are_valid nonempty short alice_and_bob "room"
           [CallCreate "x" "1"; CallCreate "" "2"] "x" "1").
  reflexivity.
Defined.

Lemma variables_are_never_deleted_witness :
  is_Some
    (Room.variables
       (execs nonempty short alice_and_bob
          [CallSet "x" "7"; CallRemoveClient 1%nat 5] room_xy) !! "x"%string).
Proof.
  apply (variables_are_never_deleted nonempty short alice_and_bob
           [CallSet "x" "7"; CallRemoveClient 1%nat 5] room_xy "x").
  by exists "1"%string.
Defined.

Lemma membership_comes_from_calls_witness :
  CallAddClient 2%nat
    ∈ [CallAddClient 1%nat; CallAddClient 2%nat; CallRemoveClient 1%nat 50].
Proof.
  apply (membership_comes_from_calls nonempty short alice_and_bob "room"
           [CallAddClient 1%nat; CallAddClient 2%nat; CallRemoveClient 1%nat 50]).
  by left.
Defined.

Lemma add_then_remove_restores_witness :
  Room.removeClient 3%nat 50 (Room.addClient 3%nat room_xy).2
    = (inr (), Room.with_lastDisconnectTime 50 room_xy).
Proof.
  apply (add_then_remove_restores 3%nat 50 room_xy). apply not_elem_of_nil.
Defined.

Lemma remove_then_add_moves_to_back_witness :
  Room.clients
    (Room.addClient 1%nat
       (Room.removeClient 1%nat 50
          (Room.with_clients [1%nat; 2%nat] room_xy)).2).2
    ≡ₚ [1%nat; 2%nat].
Proof.
  apply (remove_then_add_moves_to_back 1%nat 50
           (Room.with_clients [1%nat; 2%nat] room_xy)).
  - by_evaluation.
  - by left.
Defined.

Lemma create_then_set_or_create_witness :
  Room.set nonempty short "z" "4" (Room.create nonempty short "z" "3" room_xy).2
    = Room.create nonempty short "z" "4" room_xy.
Proof.
  apply (create_then_set_or_create nonempty short "z" "3" "4" room_xy);
    reflexivity.
Defined.

Lemma matchesVariableList_rejects_repetition_witness :
  NoDup ["y"; "x"]%string /\
  list_to_set ["y"; "x"]%string =@{gset string} dom (Room.variables room_xy).
Proof.
  apply (matchesVariableList_rejects_repetition ["y"; "x"]%string room_xy).
  reflexivity.
Defined.

Lemma creates_fill_a_new_room_witness :
  (Room.matchesVariableList [("x", "1"); ("y", "2")]%string.*1
     (execs nonempty short alice_and_bob
        ((fun pair => CallCreate pair.1 pair.2)
           <$> [("x", "1"); ("y", "2")]%string)
        (Room.new "room"))).1 = inr true.
Proof.
  apply (creates_fill_a_new_room nonempty short alice_and_bob "room"
           [("x", "1"); ("y", "2")]%string).
  - by_evaluation.
  - repeat constructor.
  - simpl. lia.
Defined.

Lemma getClients_keeps_order_witness :
  (Room.getClients
     (execs nonempty short alice_and_bob
        (CallAddClient <$> [2%nat; 1%nat; 3%nat]) (Room.new "room"))).1
    = inr [2%nat; 1%nat; 3%nat].
Proof.
  apply (getClients_keeps_order nonempty short alice_and_bob "room"
           [2%nat; 1%nat; 3%nat]).
  by_evaluation.
Defined.
